(** * Pattern redactor: a shallow embedding of [patternred.py]

    The processor masks every match of a list of regular expressions in the
    user text of a prompt and in the text of a response.  The development
    follows the source file top down:

    - [PyStr]: the Python string primitives the code uses ([len], slices
      with a possibly negative bound, [str * int], [str.join]);
    - [Redactor]: [partial_mask], the substitution [Pattern.sub] and
      [mask_matches], over an arbitrary regex engine (a record with the
      compiler and the matcher);
    - [MiniRe]: a small backtracking engine, on which the scenarios run;
    - [Processor]: the messages, the response object and [process];
    - the facts about each of them, the claims of the specification, and
      further properties of [mask_matches] and [process] (X1 to X11).

    Python [int] is [Z], [str] is [string] (one [ascii] per character),
    an exception is a value of [exn]. *)

From Stdlib Require Import String Ascii List ZArith Lia Bool Arith.
Import ListNotations.

Open Scope string_scope.

(* ------------------------------------------------------------------ *)
(** * Python string primitives *)

Module PyStr.

(** [len(s)], a Python [int]. *)
Definition len (s : string) : Z := Z.of_nat (String.length s).

(** The first [n] characters, all of [s] when it is shorter. *)
Fixpoint take (n : nat) (s : string) : string :=
  match n, s with
  | S n', String c s' => String c (take n' s')
  | _, _ => EmptyString
  end.

(** [s] without its first [n] characters. *)
Fixpoint drop (n : nat) (s : string) : string :=
  match n, s with
  | S n', String _ s' => drop n' s'
  | _, _ => s
  end.

(** A slice bound [k] as an offset into [s]: a negative bound counts from
    the end, and the result is clamped to [0 .. len s]. *)
Definition bound (s : string) (k : Z) : nat :=
  if (k <? 0)%Z then Z.to_nat (len s + k) else Z.to_nat k.

(** [s[:k]]. *)
Definition slice_to (s : string) (k : Z) : string := take (bound s k) s.

(** [s[k:]]. *)
Definition slice_from (s : string) (k : Z) : string := drop (bound s k) s.

(** [s[b:e]] for offsets [b], [e] that are not negative. *)
Definition slice (s : string) (b e : nat) : string := take (e - b) (drop b s).

Fixpoint repeat_str (s : string) (n : nat) : string :=
  match n with
  | O => EmptyString
  | S n' => s ++ repeat_str s n'
  end.

(** [s * n]: the empty string when [n <= 0]. *)
Definition mul (s : string) (n : Z) : string := repeat_str s (Z.to_nat n).

(** [sep.join(ls)]. *)
Definition join (sep : string) (ls : list string) : string :=
  String.concat sep ls.

End PyStr.

(* ------------------------------------------------------------------ *)
(** * The masking routine *)

Module Redactor.
Import PyStr.

(** ** [partial_mask]

    The closure of [mask_matches] that [re.sub] calls on every match; its
    free variables [reveal_start], [reveal_end] and [placeholder] are the
    first three arguments, [matched_text] is [match.group()]. *)
Definition partial_mask (reveal_start reveal_end : Z) (placeholder : string)
    (matched_text : string) : string :=
  let length := len matched_text in
  if (length <=? reveal_start + reveal_end)%Z then
    mul placeholder length
  else
    let visible_start := slice_to matched_text reveal_start in
    let visible_end := slice_from matched_text (- reveal_end) in
    let masked_part := mul placeholder (length - (reveal_start + reveal_end)) in
    visible_start ++ masked_part ++ visible_end.

(** ** Exceptions *)

Inductive exn : Type :=
| re_error (pattern : string)          (* [re.compile] rejects the pattern *)
| AttributeError (attribute : string)  (* the object has no such attribute *)
| UnboundLocalError (name : string).   (* a local read before assignment *)

(** ** The regex engine

    [re] is not part of the repository, so the engine is a parameter.
    [compile] is [re.compile]: [None] stands for [re.error].
    [match_at p s pos must_advance] is one matching attempt of the compiled
    pattern at offset [pos] of [s]: [Some e] when the preferred match ends
    at offset [e].  With [must_advance] set the attempt refuses the empty
    match, as the attempts of [re.sub] do just after an empty match. *)
Record Engine : Type := {
  Pattern : Type;
  compile : string -> option Pattern;
  match_at : Pattern -> string -> nat -> bool -> option nat
}.

Section Masking.

Variable E : Engine.

(** ** [Pattern.sub(repl, string)] with a function [repl]

    The substitution loop of CPython's [re] (as of Python 3.7): search the
    leftmost match from the end of the previous one, copy the text before
    it, append [repl] of the matched text; after an empty match the next
    search must advance.  Here the loop is unfolded along the offsets of
    the subject, which makes it structural.

    [at_pos] is what the substitution loop does when its search reaches
    offset [pos]: the text it emits for the matches that start there, and
    the number of characters of [s] the last of them covers.  An empty match
    is replaced and the search resumes at the same offset with
    [must_advance] set, so that a match that is not empty may follow it. *)
Definition at_pos (p : Pattern E) (repl : string -> string) (s : string)
    (pos : nat) : string * nat :=
  match match_at E p s pos false with
  | None => ("", 0)
  | Some e =>
      let out := repl (slice s pos e) in
      if (pos <? e)%nat then (out, e - pos)
      else
        match match_at E p s pos true with
        | None => (out, 0)
        | Some e' => (out ++ repl (slice s pos e'), e' - pos)
        end
  end.

(** The scan from left to right: [rest] is [s] from [pos] on and [skip]
    counts the characters of the current match still to pass.  Outside a
    match the character at [pos] is copied. *)
Fixpoint sub_walk (p : Pattern E) (repl : string -> string) (s : string)
    (pos : nat) (rest : string) (skip : nat) {struct rest} : string :=
  match skip with
  | S k =>
      match rest with
      | EmptyString => ""
      | String _ rest' => sub_walk p repl s (S pos) rest' k
      end
  | O =>
      let (out, n) := at_pos p repl s pos in
      match rest with
      | EmptyString => out
      | String c rest' =>
          match n with
          | O => out ++ String c (sub_walk p repl s (S pos) rest' 0)
          | S k => out ++ sub_walk p repl s (S pos) rest' k
          end
      end
  end.

Definition sub (p : Pattern E) (repl : string -> string) (s : string)
  : string :=
  sub_walk p repl s 0 s 0.

(** ** [mask_matches] *)

(** [[re.compile(pattern) for pattern in patterns]]: the first pattern
    that does not compile raises. *)
Fixpoint compile_patterns (patterns : list string)
  : exn + list (Pattern E) :=
  match patterns with
  | [] => inr []
  | pattern :: patterns' =>
      match compile E pattern with
      | None => inl (re_error pattern)
      | Some c =>
          match compile_patterns patterns' with
          | inl e => inl e
          | inr cs => inr (c :: cs)
          end
      end
  end.

(** A pattern is valid when [re.compile] takes it. *)
Definition valid (pattern : string) : Prop := compile E pattern <> None.

(** The [for] loop over the compiled patterns. *)
Definition apply_patterns (reveal_start reveal_end : Z) (placeholder : string)
    (compiled_patterns : list (Pattern E)) (content : string) : string :=
  fold_left
    (fun content pattern =>
       sub pattern (partial_mask reveal_start reveal_end placeholder) content)
    compiled_patterns content.

Definition mask_matches (content : string) (patterns : list string)
    (reveal_start reveal_end : Z) (placeholder : string) : exn + string :=
  match compile_patterns patterns with
  | inl e => inl e
  | inr compiled_patterns =>
      inr (apply_patterns reveal_start reveal_end placeholder
             compiled_patterns content)
  end.

End Masking.

End Redactor.

(* ------------------------------------------------------------------ *)
(** * A small regex engine

    A backtracking engine for the constructs the shipped rules are written
    in: literals, [.], [^] and [$], the escapes [\d \D \s \S] and the
    control characters, sets with ranges, groups (capturing or [(?:...)]),
    alternation and the greedy repeats [* + ? {m} {m,} {m,n}].  A pattern it
    does not cover (the escape for word characters, inline flags, lazy or
    possessive repeats, back references) is refused like a malformed one.  It instantiates
    [Engine] for the scenarios; the general theorems hold for every
    engine. *)

Module MiniRe.
Import PyStr Redactor.

Open Scope char_scope.

(** Character sets are lists of ranges of character codes. *)
Definition ranges := list (nat * nat).

Inductive regex : Type :=
| Chars (negate : bool) (set : ranges)
| Bol
| Eol
| Empty
| Cat (a b : regex)
| Alt (a b : regex)
| Rep (a : regex) (lo : nat) (hi : option nat).

Definition in_ranges (c : ascii) (set : ranges) : bool :=
  existsb (fun r => (fst r <=? nat_of_ascii c) && (nat_of_ascii c <=? snd r))%nat
          set.

Definition accepts (negate : bool) (set : ranges) (c : ascii) : bool :=
  xorb negate (in_ranges c set).

Definition below (cnt : nat) (hi : option nat) : bool :=
  match hi with
  | None => true
  | Some h => (cnt <? h)%nat
  end.

(** [rmatch r n0 s k]: match [r] at the head of [s], then the continuation
    [k] on what is left; the first success in the order of preference of a
    backtracking matcher (left alternative first, more repetitions first).
    [n0] is the length of the whole subject, which [^] needs.  A repetition
    whose body matched the empty text ends there and goes on with what
    follows it, unless it has not reached its minimum. *)
Fixpoint rmatch (r : regex) (n0 : nat) (s : string)
    (k : string -> option string) {struct r} : option string :=
  match r with
  | Chars negate set =>
      match s with
      | String c s' => if accepts negate set c then k s' else None
      | EmptyString => None
      end
  | Bol => if (String.length s =? n0)%nat then k s else None
  | Eol =>
      match s with
      | EmptyString => k s
      | String c EmptyString =>
          if (nat_of_ascii c =? 10)%nat then k s else None
      | _ => None
      end
  | Empty => k s
  | Cat a b => rmatch a n0 s (fun s' => rmatch b n0 s' k)
  | Alt a b =>
      match rmatch a n0 s k with
      | Some x => Some x
      | None => rmatch b n0 s k
      end
  | Rep a lo hi =>
      (fix loop (fuel cnt : nat) (s : string) {struct fuel} : option string :=
         let stop := if (lo <=? cnt)%nat then k s else None in
         match fuel with
         | O => stop
         | S fuel' =>
             if below cnt hi then
               match
                 rmatch a n0 s
                   (fun s' =>
                      if (String.length s' <? String.length s)%nat
                         || (cnt <? lo)%nat
                      then loop fuel' (S cnt) s'
                      else k s')
               with
               | Some x => Some x
               | None => stop
               end
             else stop
         end) (lo + String.length s + 1) 0 s
  end.

(** ** The pattern parser *)

Definition lit (c : ascii) : regex :=
  Chars false [(nat_of_ascii c, nat_of_ascii c)].

Definition digits : ranges := [(48, 57)].
Definition non_digits : ranges := [(0, 47); (58, 255)].
Definition spaces : ranges := [(9, 13); (28, 32); (133, 133); (160, 160)].
Definition non_spaces : ranges :=
  [(0, 8); (14, 27); (33, 132); (134, 159); (161, 255)].

Definition is_digit (c : ascii) : bool := in_ranges c digits.
Definition is_letter (c : ascii) : bool :=
  in_ranges c [(65, 90); (97, 122)].

(** An escape as a set of characters: a category, a control character, or
    the character itself when it is not a letter or a digit. *)
Definition escape_set (c : ascii) : option ranges :=
  if ascii_dec c "d" then Some digits
  else if ascii_dec c "D" then Some non_digits
  else if ascii_dec c "s" then Some spaces
  else if ascii_dec c "S" then Some non_spaces
  else if ascii_dec c "n" then Some [(10, 10)]
  else if ascii_dec c "t" then Some [(9, 9)]
  else if ascii_dec c "r" then Some [(13, 13)]
  else if ascii_dec c "f" then Some [(12, 12)]
  else if ascii_dec c "v" then Some [(11, 11)]
  else if ascii_dec c "a" then Some [(7, 7)]
  else if is_letter c || is_digit c then None
  else Some [(nat_of_ascii c, nat_of_ascii c)].

(** A member of a set: one character, or a category. *)
Inductive item : Type :=
| ILit (code : nat)
| ICat (set : ranges).

Definition item_ranges (i : item) : ranges :=
  match i with
  | ILit c => [(c, c)]
  | ICat set => set
  end.

Definition class_item (s : string) : option (item * string) :=
  match s with
  | EmptyString => None
  | String c r =>
      if ascii_dec c "\" then
        match r with
        | EmptyString => None
        | String e r' =>
            if is_letter e then
              match escape_set e with
              | Some [(a, b)] =>
                  if (a =? b)%nat then Some (ILit a, r') else Some (ICat [(a, b)], r')
              | Some set => Some (ICat set, r')
              | None => None
              end
            else if is_digit e then None
            else Some (ILit (nat_of_ascii e), r')
        end
      else Some (ILit (nat_of_ascii c), r)
  end.

(** The members of a set up to its closing bracket, which is a member
    itself when it comes [first]. *)
Fixpoint parse_set (fuel : nat) (first : bool) (s : string) (acc : ranges)
  : option (ranges * string) :=
  match fuel with
  | O => None
  | S fuel' =>
      let members :=
        match class_item s with
        | None => None
        | Some (code1, r1) =>
            match r1 with
            | String "-" EmptyString => None
            | String "-" (String "]" r3) =>
                Some (acc ++ item_ranges code1 ++ [(45, 45)], r3)%list
            | String "-" r2 =>
                match class_item r2 with
                | Some (ILit hi, r3) =>
                    match code1 with
                    | ILit lo =>
                        if (hi <? lo)%nat then None
                        else parse_set fuel' false r3 (acc ++ [(lo, hi)])%list
                    | ICat _ => None
                    end
                | _ => None
                end
            | _ => parse_set fuel' false r1 (acc ++ item_ranges code1)%list
            end
        end in
      match s with
      | EmptyString => None
      | String "]" r => if first then members else Some (acc, r)
      | _ => members
      end
  end.

Fixpoint read_digits (s : string) (acc : option nat) : option nat * string :=
  match s with
  | String c r =>
      if is_digit c then
        read_digits r
          (Some (10 * match acc with Some n => n | None => 0 end
                 + (nat_of_ascii c - 48)))
      else (acc, s)
  | EmptyString => (acc, s)
  end.

(** What follows an item: no repeat, a repeat the parser refuses, or a
    repeat with its bounds and the rest of the pattern. *)
Inductive quant : Type :=
| QNone
| QErr
| QOk (lo : nat) (hi : option nat) (rest : string).

(** The text after an opening brace: a repeat when it reads [m}], [m,}],
    [,n}] or [m,n}], else the brace is a literal. *)
Definition parse_brace (s : string) : quant :=
  match s with
  | String "}" _ => QNone
  | _ =>
      let (lo, r1) := read_digits s None in
      let (hi, r2) :=
        match r1 with
        | String "," r => read_digits r None
        | _ => (lo, r1)
        end in
      match r2 with
      | String "}" r3 =>
          let m := match lo with Some n => n | None => 0 end in
          match hi with
          | Some h => if (h <? m)%nat then QErr else QOk m (Some h) r3
          | None => QOk m None r3
          end
      | _ => QNone
      end
  end.

(** A lazy or possessive suffix is not covered. *)
Definition greedy_only (q : quant) : quant :=
  match q with
  | QOk _ _ (String c _) =>
      if ascii_dec c "?" then QErr else if ascii_dec c "+" then QErr else q
  | _ => q
  end.

Definition parse_quant (s : string) : quant :=
  match s with
  | String c r =>
      if ascii_dec c "*" then greedy_only (QOk 0 None r)
      else if ascii_dec c "+" then greedy_only (QOk 1 None r)
      else if ascii_dec c "?" then greedy_only (QOk 0 (Some 1) r)
      else if ascii_dec c "{" then greedy_only (parse_brace r)
      else QNone
  | EmptyString => QNone
  end.

Definition is_anchor (r : regex) : bool :=
  match r with
  | Bol | Eol => true
  | _ => false
  end.

(** One item without its repeat; [palt] parses the body of a group. *)
Definition parse_atom (palt : string -> option (regex * string)) (s : string)
  : option (regex * string) :=
  match s with
  | EmptyString => None
  | String c r =>
      if ascii_dec c "(" then
        let body :=
          match r with
          | String "?" (String ":" r') => Some r'
          | String "?" _ => None
          | _ => Some r
          end in
        match body with
        | None => None
        | Some b =>
            match palt b with
            | Some (x, String ")" r') => Some (x, r')
            | _ => None
            end
        end
      else if ascii_dec c "[" then
        let (negate, r') :=
          match r with
          | String "^" r' => (true, r')
          | _ => (false, r)
          end in
        match parse_set (S (String.length r')) true r' [] with
        | Some (set, r'') => Some (Chars negate set, r'')
        | None => None
        end
      else if ascii_dec c "\" then
        match r with
        | String e r' =>
            match escape_set e with
            | Some set => Some (Chars false set, r')
            | None => None
            end
        | EmptyString => None
        end
      else if ascii_dec c "." then Some (Chars true [(10, 10)], r)
      else if ascii_dec c "^" then Some (Bol, r)
      else if ascii_dec c "$" then Some (Eol, r)
      else if ascii_dec c "*" then None
      else if ascii_dec c "+" then None
      else if ascii_dec c "?" then None
      else if ascii_dec c "{" then
        match parse_brace r with
        | QNone => Some (lit c, r)
        | _ => None
        end
      else Some (lit c, r)
  end.

(** A sequence of items, up to [|], [)] or the end of the pattern. *)
Fixpoint parse_seq (palt : string -> option (regex * string)) (fuel : nat)
    (s : string) : option (regex * string) :=
  let items :=
    match fuel with
    | O => None
    | S fuel' =>
        match parse_atom palt s with
        | None => None
        | Some (a, r) =>
            let item :=
              match parse_quant r with
              | QErr => None
              | QNone => Some (a, r)
              | QOk lo hi r' =>
                  if is_anchor a then None else Some (Rep a lo hi, r')
              end in
            match item with
            | None => None
            | Some (x, r') =>
                match parse_seq palt fuel' r' with
                | None => None
                | Some (y, r'') => Some (Cat x y, r'')
                end
            end
        end
    end in
  match s with
  | EmptyString => Some (Empty, s)
  | String c _ =>
      if ascii_dec c "|" then Some (Empty, s)
      else if ascii_dec c ")" then Some (Empty, s)
      else items
  end.

(** Alternatives, up to [)] or the end of the pattern. *)
Fixpoint parse_alt (fuel : nat) (s : string) : option (regex * string) :=
  match fuel with
  | O => None
  | S fuel' =>
      match parse_seq (parse_alt fuel') fuel' s with
      | None => None
      | Some (a, String "|" r) =>
          match parse_alt fuel' r with
          | None => None
          | Some (b, r') => Some (Alt a b, r')
          end
      | Some (a, r) => Some (a, r)
      end
  end.

Close Scope char_scope.

(** The length of the pattern bounds its items and the depth of its
    groups; what is left after the last alternative is a stray [)]. *)
Definition parse (pattern : string) : option regex :=
  match parse_alt (S (String.length pattern)) pattern with
  | Some (r, EmptyString) => Some r
  | _ => None
  end.

(** One attempt at offset [pos]: the end of the preferred match. *)
Definition attempt (r : regex) (s : string) (pos : nat) (must_advance : bool)
  : option nat :=
  if (pos <=? String.length s)%nat then
    let rest := drop pos s in
    match
      rmatch r (String.length s) rest
        (fun rest' =>
           if must_advance && (String.length rest' =? String.length rest)%nat
           then None
           else Some rest')
    with
    | Some rest' => Some (String.length s - String.length rest')
    | None => None
    end
  else None.

Definition engine : Engine :=
  {| Pattern := regex; compile := parse; match_at := attempt |}.

End MiniRe.

(* ------------------------------------------------------------------ *)
(** * The processor *)

Module Processor.
Import PyStr Redactor.

(** ** The objects of the gateway SDK, as far as [process] touches them *)

Inductive MessageRole : Type := USER | SYSTEM | ASSISTANT.

Record Message : Type := { content : string; role : MessageRole }.

(** The prompt: [prompt.messages]. *)
Record RequestInput : Type := { messages : list Message }.

(** [process] tests with [hasattr] whether a choice has a [message] and
    whether the response has [choices]: an attribute the object does not
    have is [None] here. *)
Record Choice : Type := { message : option Message }.

Record ResponseOutput : Type := { choices : option (list Choice) }.

Record PatternRedactorParameters : Type := {
  rules : list string;
  debug_echo : bool;
  placeholder : string;
  reveal_start : Z;
  reveal_end : Z
}.

Definition DEFAULT_PLACEHOLDER : string := "*".

(** The shipped rules that are written in ASCII (the first shipped rule,
    for Thai titles and names, is not). *)
Definition national_id_rule : string := "\d{13}".
Definition formatted_id_rule : string := "\d{1}-\d{4}-\d{5}-\d{2}-\d{1}".
Definition mobile_rule : string := "\d{3}-\d{3}-\d{4}".
Definition mobile_rule' : string := "\d{3}-\d{7}".
Definition email_rule : string :=
  "[a-zA-Z0-9._%+-]+@[a-zA-Z0-9.-]+\.[a-zA-Z]{2,}".

(** The field defaults, with a given rule list. *)
Definition default_parameters (rules : list string)
  : PatternRedactorParameters :=
  {| rules := rules; debug_echo := false;
     placeholder := DEFAULT_PLACEHOLDER;
     reveal_start := 2; reveal_end := 2 |}.

(** What [process] hands to the SDK's [Result]; the constructors of the
    SDK ([Result], [Tags], [Metadata], [Message]) only build their
    objects. *)
Record Result : Type := {
  processor_result : list (string * string);
  tags : list (string * string);
  modified : bool;
  modified_prompt : option RequestInput;
  modified_response : option ResponseOutput
}.

(** [process] mutates the prompt and the response it is given, so an
    outcome carries both objects as the call leaves them, whether it
    returns or raises.  The messages and the choices of a request are
    distinct objects (the SDK builds them from the request body). *)
Inductive outcome : Type :=
| Returned (result : Result) (prompt : RequestInput)
    (response : option ResponseOutput)
| Raised (e : exn) (prompt : RequestInput) (response : option ResponseOutput).

Definition prompt_after (o : outcome) : RequestInput :=
  match o with
  | Returned _ p _ | Raised _ p _ => p
  end.

Definition response_after (o : outcome) : option ResponseOutput :=
  match o with
  | Returned _ _ r | Raised _ _ r => r
  end.

Definition is_user (m : Message) : bool :=
  match role m with
  | USER => true
  | _ => false
  end.

(** No message of [ms] has the role [USER]: the message after [ms] is the
    first one that may have it. *)
Definition no_user (ms : list Message) : bool :=
  forallb (fun m => negb (is_user m)) ms.

Section Process.

Variable E : Engine.

(** [" ".join(message.content for message in prompt.messages
              if message.role == MessageRole.USER)] *)
Definition user_input (prompt : RequestInput) : string :=
  join " " (map content (filter is_user (messages prompt))).

(** The loop that overwrites the user input and stops at the first
    message of role [USER]. *)
Fixpoint overwrite_user_input (masked_content : string) (ms : list Message)
  : list Message :=
  match ms with
  | [] => []
  | m :: ms' =>
      if is_user m then {| content := masked_content; role := role m |} :: ms'
      else m :: overwrite_user_input masked_content ms'
  end.

Definition mask (parameters : PatternRedactorParameters) (text : string)
  : exn + string :=
  mask_matches E text (rules parameters) (reveal_start parameters)
    (reveal_end parameters) (placeholder parameters).

(** The extraction of the response content.  The local
    [masked_response_content] is assigned only when the response has
    choices, the list is not empty and its first entry has a message:
    [None] is the unbound local. *)
Definition extract_response (parameters : PatternRedactorParameters)
    (response : ResponseOutput) : exn + option string :=
  match choices response with
  | Some (choice0 :: _) =>
      match message choice0 with
      | Some m =>
          match mask parameters (content m) with
          | inl e => inl e
          | inr masked_response_content => inr (Some masked_response_content)
          end
      | None => inr None
      end
  | _ => inr None
  end.

(** [for choice in response.choices:
       choice.message.content = masked_response_content]
    The right-hand side is evaluated first, then [choice.message]; the
    choices passed before an exception keep their new content. *)
Fixpoint write_back (masked_response_content : option string)
    (cs : list Choice) : list Choice * option exn :=
  match cs with
  | [] => ([], None)
  | choice :: cs' =>
      match masked_response_content with
      | None => (cs, Some (UnboundLocalError "masked_response_content"))
      | Some masked =>
          match message choice with
          | None => (cs, Some (AttributeError "message"))
          | Some m =>
              let (cs'', e) := write_back masked_response_content cs' in
              ({| message := Some {| content := masked; role := role m |} |}
                 :: cs'', e)
          end
      end
  end.

(** The response stage: skipped when the response is absent. *)
Definition mask_response (parameters : PatternRedactorParameters)
    (response : option ResponseOutput) : option ResponseOutput * option exn :=
  match response with
  | None => (None, None)
  | Some r =>
      match extract_response parameters r with
      | inl e => (response, Some e)
      | inr masked_response_content =>
          match choices r with
          | None => (response, Some (AttributeError "choices"))
          | Some cs =>
              let (cs', e) := write_back masked_response_content cs in
              (Some {| choices := Some cs' |}, e)
          end
      end
  end.

Definition debug_metadata : list (string * string) := [("llm_flow", "debug")].

Definition process (prompt : RequestInput) (response : option ResponseOutput)
    (parameters : PatternRedactorParameters) : outcome :=
  match mask parameters (user_input prompt) with
  | inl e => Raised e prompt response
  | inr masked_content =>
      let prompt1 :=
        {| messages := overwrite_user_input masked_content (messages prompt) |} in
      match mask_response parameters response with
      | (response1, Some e) => Raised e prompt1 response1
      | (response1, None) =>
          if debug_echo parameters then
            let prompt2 :=
              {| messages :=
                   messages prompt1
                   ++ [{| content := masked_content; role := SYSTEM |}] |} in
            Returned
              {| processor_result := debug_metadata;
                 tags := [("llm_flow", "debug")];
                 modified := true;
                 modified_prompt := Some prompt2;
                 modified_response := None |}
              prompt2 response1
          else
            Returned
              {| processor_result := debug_metadata;
                 tags := [];
                 modified := true;
                 modified_prompt :=
                   match response1 with
                   | None => Some prompt1
                   | Some _ => None
                   end;
                 modified_response := response1 |}
              prompt1 response1
      end
  end.

End Process.

End Processor.

(* ------------------------------------------------------------------ *)
(** * Facts about the string primitives *)

Module PyStrFacts.
Import PyStr.

Lemma length_app (s t : string) :
  String.length (s ++ t) = String.length s + String.length t.
Proof. induction s as [|c s IH]; simpl; [reflexivity | now rewrite IH]. Qed.

Lemma app_empty_r (s : string) : s ++ "" = s.
Proof. induction s as [|c s IH]; simpl; [reflexivity | now rewrite IH]. Qed.

Lemma app_assoc (s t u : string) : (s ++ t) ++ u = s ++ (t ++ u).
Proof. induction s as [|c s IH]; simpl; [reflexivity | now rewrite IH]. Qed.

Lemma length_take (n : nat) (s : string) :
  String.length (take n s) = Nat.min n (String.length s).
Proof.
  revert s; induction n as [|n IH]; intros [|c s]; simpl; auto.
Qed.

Lemma length_drop (n : nat) (s : string) :
  String.length (drop n s) = String.length s - n.
Proof.
  revert s; induction n as [|n IH]; intros [|c s]; simpl; auto.
Qed.

Lemma take_drop (n : nat) (s : string) : take n s ++ drop n s = s.
Proof.
  revert s; induction n as [|n IH]; intros [|c s]; simpl; auto.
  now rewrite IH.
Qed.

Lemma take_all (n : nat) (s : string) :
  String.length s <= n -> take n s = s.
Proof.
  revert s; induction n as [|n IH]; intros [|c s]; simpl; intros H; auto;
    try lia.
  now rewrite IH by lia.
Qed.

Lemma drop_0 (s : string) : drop 0 s = s.
Proof. now destruct s. Qed.

Lemma take_0 (s : string) : take 0 s = "".
Proof. now destruct s. Qed.

Lemma drop_all (n : nat) (s : string) :
  String.length s <= n -> drop n s = "".
Proof.
  revert s; induction n as [|n IH]; intros [|c s]; simpl; intros H; auto;
    try lia.
  apply IH; lia.
Qed.

Lemma drop_drop (n k : nat) (s : string) :
  drop k (drop n s) = drop (n + k) s.
Proof.
  revert s; induction n as [|n IH]; intros s.
  - now rewrite drop_0.
  - destruct s as [|c s]; simpl; [now destruct k | apply IH].
Qed.

Lemma length_repeat_str (s : string) (n : nat) :
  String.length (repeat_str s n) = n * String.length s.
Proof.
  induction n as [|n IH]; simpl; [reflexivity|].
  now rewrite length_app, IH.
Qed.

Lemma length_mul (s : string) (n : Z) :
  String.length (mul s n) = Z.to_nat n * String.length s.
Proof. apply length_repeat_str. Qed.

Lemma length_0_empty (s : string) : String.length s = 0 -> s = "".
Proof. destruct s; simpl; [reflexivity | discriminate]. Qed.

End PyStrFacts.

(* ------------------------------------------------------------------ *)
(** * Facts about [partial_mask] *)

Module MaskFacts.
Import PyStr PyStrFacts Redactor.

Lemma len_nonneg (s : string) : (0 <= len s)%Z.
Proof. unfold len; lia. Qed.

Lemma mul_len (placeholder s : string) :
  mul placeholder (len s) = repeat_str placeholder (String.length s).
Proof. unfold mul, len; now rewrite Nat2Z.id. Qed.

(** A bound that is not negative is an offset from the start. *)
Lemma slice_to_nonneg (s : string) (k : Z) :
  (0 <= k)%Z -> slice_to s k = take (Z.to_nat k) s.
Proof.
  intros Hk; unfold slice_to, bound.
  destruct (Z.ltb_spec k 0); [lia | reflexivity].
Qed.

(** A negative bound counts from the end: [s[-k:]] is the last [k]
    characters when [0 < k]. *)
Lemma slice_from_neg (s : string) (k : Z) :
  (0 < k)%Z -> slice_from s (- k) = drop (String.length s - Z.to_nat k) s.
Proof.
  intros Hk; unfold slice_from, bound.
  destruct (Z.ltb_spec (- k) 0); [|lia].
  f_equal; unfold len; lia.
Qed.

(** [s[-0:]] is [s[0:]]: the whole string. *)
Lemma slice_from_neg_0 (s : string) : slice_from s (- 0) = s.
Proof. unfold slice_from, bound; simpl. apply drop_0. Qed.

Lemma partial_mask_short (rs re : Z) (placeholder m : string) :
  (len m <= rs + re)%Z ->
  partial_mask rs re placeholder m = repeat_str placeholder (String.length m).
Proof.
  intros H; unfold partial_mask.
  destruct (Z.leb_spec (len m) (rs + re)); [apply mul_len | lia].
Qed.

Lemma partial_mask_long (rs re : Z) (placeholder m : string) :
  (rs + re < len m)%Z ->
  partial_mask rs re placeholder m =
  slice_to m rs ++ mul placeholder (len m - (rs + re)) ++ slice_from m (- re).
Proof.
  intros H; unfold partial_mask.
  destruct (Z.leb_spec (len m) (rs + re)); [lia | reflexivity].
Qed.

(** With at least one character revealed at the end, a long match keeps
    its first [rs] and its last [re] characters around the placeholders. *)
Lemma partial_mask_reveal (rs re : Z) (placeholder m : string) :
  (0 <= rs)%Z -> (0 < re)%Z -> (rs + re < len m)%Z ->
  partial_mask rs re placeholder m =
  take (Z.to_nat rs) m
  ++ repeat_str placeholder (String.length m - Z.to_nat rs - Z.to_nat re)
  ++ drop (String.length m - Z.to_nat re) m.
Proof.
  intros Hrs Hre H.
  rewrite partial_mask_long, slice_to_nonneg, slice_from_neg by assumption.
  unfold mul; do 3 f_equal. unfold len; lia.
Qed.

(** The replacement is as long as the match whenever the placeholder is one
    character and the match is short or [reveal_end] is not zero. *)
Lemma partial_mask_length (rs re : Z) (placeholder m : string) :
  String.length placeholder = 1 ->
  (0 <= rs)%Z -> (0 <= re)%Z -> (len m <= rs + re \/ 0 < re)%Z ->
  String.length (partial_mask rs re placeholder m) = String.length m.
Proof.
  intros Hp Hrs Hre H.
  destruct (Z.le_gt_cases (len m) (rs + re)) as [Hs|Hl].
  - rewrite partial_mask_short, length_repeat_str by assumption. lia.
  - assert (0 < re)%Z as Hre' by lia.
    rewrite partial_mask_reveal by lia.
    rewrite !length_app, length_take, length_drop, length_repeat_str.
    unfold len in Hl. lia.
Qed.

End MaskFacts.

(* ------------------------------------------------------------------ *)
(** * Facts about the substitution and [mask_matches] *)

Module SubFacts.
Import PyStr PyStrFacts Redactor MaskFacts.

Lemma drop_step (pos : nat) (s : string) (c : ascii) (rest : string) :
  drop pos s = String c rest -> drop (S pos) s = rest.
Proof.
  revert s; induction pos as [|pos IH]; intros s H.
  - rewrite drop_0 in H; subst s. apply drop_0.
  - destruct s as [|d s]; [discriminate H | exact (IH s H)].
Qed.

Lemma length_slice (s : string) (b e : nat) :
  String.length (slice s b e) = Nat.min (e - b) (String.length (drop b s)).
Proof. unfold slice; apply length_take. Qed.

Lemma slice_empty (s : string) (b e : nat) : e <= b -> slice s b e = "".
Proof.
  intros H; unfold slice. replace (e - b) with 0 by lia. apply take_0.
Qed.

Lemma slice_of_empty (b e : nat) : slice "" b e = "".
Proof.
  unfold slice. apply length_0_empty.
  rewrite length_take, length_drop; simpl; lia.
Qed.

Section Sub.

Variable E : Engine.
Variable p : Pattern E.
Variable repl : string -> string.

(** ** A replacement function that keeps the length *)

Section KeepsLength.

Hypothesis repl_length : forall m, String.length (repl m) = String.length m.

Lemma at_pos_length (s : string) (pos : nat) :
  String.length (fst (at_pos E p repl s pos)) =
  Nat.min (snd (at_pos E p repl s pos)) (String.length (drop pos s)).
Proof.
  unfold at_pos.
  destruct (match_at E p s pos false) as [e|]; simpl; [|reflexivity].
  destruct (Nat.ltb_spec pos e) as [Hlt|Hge]; simpl.
  - now rewrite repl_length, length_slice.
  - rewrite (slice_empty s pos e Hge).
    destruct (match_at E p s pos true) as [e'|]; simpl.
    + rewrite length_app, !repl_length, length_slice; simpl; lia.
    + rewrite repl_length; reflexivity.
Qed.

Lemma sub_walk_length (s rest : string) :
  forall pos skip,
    drop pos s = rest ->
    String.length (sub_walk E p repl s pos rest skip) =
    String.length rest - skip.
Proof.
  induction rest as [|c rest IH]; intros pos skip Hrest.
  - destruct skip; simpl; [|reflexivity].
    pose proof (at_pos_length s pos) as H; rewrite Hrest in H.
    destruct (at_pos E p repl s pos) as [out n]; simpl in *. lia.
  - pose proof (drop_step _ _ _ _ Hrest) as Hnext.
    destruct skip as [|k]; simpl.
    + pose proof (at_pos_length s pos) as H; rewrite Hrest in H.
      destruct (at_pos E p repl s pos) as [out [|k]]; simpl in H |- *;
        rewrite length_app; simpl; rewrite (IH _ _ Hnext); lia.
    + rewrite (IH _ _ Hnext); lia.
Qed.

Lemma sub_length (s : string) :
  String.length (sub E p repl s) = String.length s.
Proof.
  unfold sub. rewrite sub_walk_length by apply drop_0. lia.
Qed.

End KeepsLength.

(** ** The leftmost match *)

(** Where no match starts, the scan copies the text. *)
Lemma sub_walk_copy (s : string) (k : nat) :
  forall pos rest,
    drop pos s = rest ->
    k <= String.length rest ->
    (forall i, pos <= i < pos + k -> match_at E p s i false = None) ->
    sub_walk E p repl s pos rest 0 =
    take k rest ++ sub_walk E p repl s (pos + k) (drop k rest) 0.
Proof.
  induction k as [|k IH]; intros pos rest Hrest Hk Hnone.
  - now rewrite take_0, drop_0, Nat.add_0_r.
  - destruct rest as [|c rest]; [simpl in Hk; lia|].
    pose proof (drop_step _ _ _ _ Hrest) as Hnext.
    simpl. unfold at_pos. rewrite (Hnone pos) by lia. simpl.
    f_equal. rewrite (IH (S pos) rest Hnext).
    + now rewrite Nat.add_succ_r.
    + simpl in Hk; lia.
    + intros i Hi; apply Hnone; lia.
Qed.

(** The characters of a match are passed without another attempt. *)
Lemma sub_walk_skip (s : string) (k : nat) :
  forall pos rest,
    k <= String.length rest ->
    sub_walk E p repl s pos rest k =
    sub_walk E p repl s (pos + k) (drop k rest) 0.
Proof.
  induction k as [|k IH]; intros pos rest Hk.
  - now rewrite drop_0, Nat.add_0_r.
  - destruct rest as [|c rest]; [simpl in Hk; lia|].
    simpl. rewrite IH by (simpl in Hk; lia).
    now rewrite Nat.add_succ_r.
Qed.

(** The first replacement is that of the leftmost match, and the scan
    resumes where that match ends. *)
Lemma sub_leftmost (s : string) (b e : nat) :
  (forall i, i < b -> match_at E p s i false = None) ->
  match_at E p s b false = Some e ->
  b < e <= String.length s ->
  sub E p repl s =
  take b s ++ repl (slice s b e) ++ sub_walk E p repl s e (drop e s) 0.
Proof.
  intros Hnone Hmatch [Hbe He]. unfold sub.
  rewrite (sub_walk_copy s b 0 s (drop_0 s)); [|lia|intros i Hi; apply Hnone; lia].
  f_equal. simpl.
  destruct (drop b s) as [|c rest] eqn:Hrest.
  { pose proof (length_drop b s) as Hl; rewrite Hrest in Hl; simpl in Hl; lia. }
  pose proof (drop_step _ _ _ _ Hrest) as Hnext.
  simpl. unfold at_pos. rewrite Hmatch.
  destruct (Nat.ltb_spec b e) as [_|]; [|lia].
  destruct (e - b) as [|k] eqn:Hk; [lia|].
  f_equal. rewrite sub_walk_skip.
  - replace (S b + k) with e by lia.
    rewrite <- Hnext, drop_drop. now replace (S b + k) with e by lia.
  - pose proof (length_drop (S b) s) as Hl; rewrite Hnext in Hl. lia.
Qed.

(** ** The empty subject *)

Lemma sub_empty : repl "" = "" -> sub E p repl "" = "".
Proof.
  intros H; unfold sub; simpl. unfold at_pos.
  destruct (match_at E p "" 0 false) as [e|]; [|reflexivity].
  rewrite !slice_of_empty.
  destruct (0 <? e)%nat; simpl; [assumption|].
  destruct (match_at E p "" 0 true) as [e'|]; simpl;
    rewrite ?slice_of_empty, !H; reflexivity.
Qed.

End Sub.

Section MaskMatches.

Variable E : Engine.

Lemma compile_patterns_valid (patterns : list string) :
  Forall (valid E) patterns ->
  exists compiled, compile_patterns E patterns = inr compiled.
Proof.
  induction 1 as [|pattern patterns Hp _ [cs IH]]; simpl.
  - now exists [].
  - unfold valid in Hp. destruct (compile E pattern) as [c|]; [|congruence].
    rewrite IH. now exists (c :: cs).
Qed.

Lemma compile_patterns_invalid (patterns : list string) :
  Exists (fun pattern => compile E pattern = None) patterns ->
  exists bad,
    In bad patterns /\ compile E bad = None /\
    compile_patterns E patterns = inl (re_error bad).
Proof.
  induction patterns as [|pattern patterns IH]; intros H.
  - inversion H.
  - simpl. destruct (compile E pattern) as [c|] eqn:Hc.
    + inversion H as [? ? Hbad|? ? Hrest]; subst; [congruence|].
      destruct (IH Hrest) as (bad & Hin & Hbad & ->).
      exists bad; auto.
    + exists pattern; auto.
Qed.

(** Whether [mask_matches] raises depends on the patterns alone. *)
Lemma mask_matches_raises (text text' : string) (patterns : list string)
    (rs re rs' re' : Z) (placeholder placeholder' : string) (e : exn) :
  mask_matches E text patterns rs re placeholder = inl e ->
  mask_matches E text' patterns rs' re' placeholder' = inl e.
Proof.
  unfold mask_matches.
  destruct (compile_patterns E patterns); [intros H; exact H | discriminate].
Qed.

Lemma mask_matches_returns (text text' : string) (patterns : list string)
    (rs re : Z) (placeholder out : string) :
  mask_matches E text patterns rs re placeholder = inr out ->
  exists out', mask_matches E text' patterns rs re placeholder = inr out'.
Proof.
  unfold mask_matches.
  destruct (compile_patterns E patterns); [discriminate | eauto].
Qed.

Lemma apply_patterns_length (rs re : Z) (placeholder : string)
    (compiled : list (Pattern E)) :
  (forall m, String.length (partial_mask rs re placeholder m)
             = String.length m) ->
  forall text,
    String.length (apply_patterns E rs re placeholder compiled text)
    = String.length text.
Proof.
  intros H; unfold apply_patterns.
  induction compiled as [|c cs IH]; intros text; simpl; [reflexivity|].
  rewrite IH. now apply sub_length.
Qed.

(** The output of the mask is as long as its input when the placeholder is
    one character and [reveal_end] is not zero. *)
Lemma mask_matches_length (text : string) (patterns : list string)
    (rs re : Z) (placeholder out : string) :
  String.length placeholder = 1 -> (0 <= rs)%Z -> (0 < re)%Z ->
  mask_matches E text patterns rs re placeholder = inr out ->
  String.length out = String.length text.
Proof.
  intros Hp Hrs Hre; unfold mask_matches.
  destruct (compile_patterns E patterns) as [|cs]; [discriminate|].
  intros H; inversion H; subst; clear H.
  apply apply_patterns_length.
  intros m; apply partial_mask_length; auto; lia.
Qed.

Lemma apply_patterns_empty (rs re : Z) (placeholder : string)
    (compiled : list (Pattern E)) :
  (0 <= rs + re)%Z ->
  apply_patterns E rs re placeholder compiled "" = "".
Proof.
  intros H; unfold apply_patterns.
  induction compiled as [|c cs IH]; simpl; [reflexivity|].
  rewrite sub_empty; [exact IH|].
  rewrite partial_mask_short by (unfold len; simpl; lia). reflexivity.
Qed.

End MaskMatches.

End SubFacts.

(* ------------------------------------------------------------------ *)
(** * Facts about [process] *)

Module ProcessFacts.
Import PyStr PyStrFacts Redactor MaskFacts SubFacts Processor.

(** The message at index [i] after the overwrite: the new content when it
    is the first message of role [USER], itself otherwise. *)
Lemma overwrite_user_input_nth (masked : string) (ms : list Message) :
  forall i m,
    nth_error ms i = Some m ->
    nth_error (overwrite_user_input masked ms) i =
    Some (if is_user m && no_user (firstn i ms)
          then {| content := masked; role := role m |}
          else m).
Proof.
  induction ms as [|m0 ms IH]; intros [|i] m H; simpl in H; try discriminate.
  - inversion H; subst m0; simpl.
    destruct (is_user m); reflexivity.
  - simpl. destruct (is_user m0) eqn:H0; simpl.
    + rewrite H. now rewrite andb_false_r.
    + apply IH, H.
Qed.

Lemma nth_error_app_left {A : Type} (l l' : list A) (i : nat) (x : A) :
  nth_error l i = Some x -> nth_error (l ++ l')%list i = Some x.
Proof.
  intros H. rewrite nth_error_app1; [exact H|].
  apply nth_error_Some; congruence.
Qed.

(** Every choice has a message: the loop passes them all. *)
Lemma write_back_all (masked : string) (cs : list Choice) :
  Forall (fun c => message c <> None) cs ->
  exists cs',
    write_back (Some masked) cs = (cs', None) /\
    Forall2
      (fun c c' =>
         exists m, message c = Some m /\
                   message c' = Some {| content := masked; role := role m |})
      cs cs'.
Proof.
  induction 1 as [|c cs Hc _ (cs' & IH & Hall)]; simpl.
  - exists []; split; [reflexivity | constructor].
  - destruct (message c) as [m|] eqn:Hm; [|congruence].
    rewrite IH. eexists; split; [reflexivity|].
    constructor; [|exact Hall].
    exists m; simpl; auto.
Qed.

Section Process.

Variable E : Engine.

(** The prompt that [process] leaves when the mask of the user input
    returns: the overwritten messages, and the debug message after them
    when the call returns with [debug_echo] set. *)
Lemma process_prompt_after (prompt : RequestInput)
    (response : option ResponseOutput)
    (parameters : PatternRedactorParameters) (masked : string) :
  mask E parameters (user_input prompt) = inr masked ->
  exists extra,
    messages (prompt_after (process E prompt response parameters)) =
    (overwrite_user_input masked (messages prompt) ++ extra)%list.
Proof.
  intros H; unfold process; rewrite H.
  destruct (mask_response E parameters response) as [r1 [e|]]; simpl.
  - exists []; now rewrite app_nil_r.
  - destruct (debug_echo parameters); simpl.
    + eexists; reflexivity.
    + exists []; now rewrite app_nil_r.
Qed.

(** A rule that does not compile: the first call of [mask_matches] raises,
    and [process] leaves the prompt and the response as they were. *)
Lemma process_invalid_rule (prompt : RequestInput)
    (response : option ResponseOutput)
    (parameters : PatternRedactorParameters) (e : exn) :
  mask E parameters (user_input prompt) = inl e ->
  process E prompt response parameters = Raised e prompt response.
Proof. intros H; unfold process; now rewrite H. Qed.

End Process.

End ProcessFacts.

(* ------------------------------------------------------------------ *)
(** * The specification's claims *)

Import PyStr PyStrFacts Redactor MaskFacts SubFacts Processor ProcessFacts.

(** ** The replacement of one match *)

(** C1 (the code departs from the claim).  Length preservation fails when
    [reveal_end] is 0: with a placeholder of one character and no character
    to reveal, the replacement of the 7-character match [a@b.com] is 14
    characters long, and the mask of a 19-character text is 26 characters
    long.  [partial_mask_length] and [mask_matches_length] above prove the
    claim for every [reveal_end] that is not 0. *)
Theorem mask_length_at_reveal_end_0 :
  String.length "a@b.com" = 7
  /\ String.length (partial_mask 0 0 "*" "a@b.com") = 14
  /\ String.length "contact a@b.com now" = 19
  /\ exists out,
       mask_matches MiniRe.engine "contact a@b.com now" [email_rule] 0 0 "*"
       = inr out
       /\ String.length out = 26.
Proof.
  repeat split.
  eexists; split; vm_compute; reflexivity.
Qed.

(** C2 (the code departs from the claim).  With [reveal_start = 0] and
    [reveal_end = 0] the email rule turns [contact a@b.com now] into the
    seven placeholders followed by the whole address, not into
    [contact ******* now]: the slice [matched_text[-0:]] is the whole
    match. *)
Theorem mask_email_scenario_reveal_0 :
  mask_matches MiniRe.engine "contact a@b.com now" [email_rule] 0 0 "*"
  = inr "contact *******a@b.com now".
Proof. vm_compute; reflexivity. Qed.

(** C3, as stated, at a placeholder of two characters: the match [abc] is
    longer than [reveal_start = 0], its replacement is six characters of
    placeholder and the match, nine characters and not [2 * 3]. *)
Lemma reveal_end_0_length_two_char_placeholder :
  (0 < len "abc")%Z
  /\ partial_mask 0 0 "##" "abc" = "######abc"
  /\ Nat.eqb (String.length (partial_mask 0 0 "##" "abc"))
             (2 * String.length "abc") = false.
Proof. repeat split. Qed.

(** C3 (amended).  When [reveal_end] is 0 and the match [m] is longer than
    [reveal_start], the replacement is [m[:reveal_start]], then
    [len(m) - reveal_start] copies of the placeholder, then the whole match
    [m].  For a [reveal_start] that is not negative its length is
    [reveal_start + (len(m) - reveal_start) * len(placeholder) + len(m)],
    which is [2 * len(m)] when the placeholder is one character. *)
Theorem partial_mask_reveal_end_0 (rs : Z) (placeholder m : string) :
  (rs < len m)%Z ->
  partial_mask rs 0 placeholder m
  = slice_to m rs ++ mul placeholder (len m - rs) ++ m
  /\ ((0 <= rs)%Z ->
      slice_to m rs = take (Z.to_nat rs) m
      /\ String.length (partial_mask rs 0 placeholder m)
         = Z.to_nat rs
           + (String.length m - Z.to_nat rs) * String.length placeholder
           + String.length m
      /\ (String.length placeholder = 1 ->
          String.length (partial_mask rs 0 placeholder m)
          = 2 * String.length m)).
Proof.
  intros Hlt.
  assert (partial_mask rs 0 placeholder m
          = slice_to m rs ++ mul placeholder (len m - rs) ++ m) as Heq.
  { rewrite partial_mask_long by lia.
    now rewrite slice_from_neg_0, Z.add_0_r. }
  split; [exact Heq|].
  intros Hrs.
  assert (String.length (partial_mask rs 0 placeholder m)
          = Z.to_nat rs
            + (String.length m - Z.to_nat rs) * String.length placeholder
            + String.length m) as Hlen.
  { rewrite Heq, slice_to_nonneg by assumption.
    rewrite !length_app, length_take, length_mul.
    unfold len in *.
    replace (Z.to_nat (Z.of_nat (String.length m) - rs))
      with (String.length m - Z.to_nat rs) by lia.
    lia. }
  split; [now apply slice_to_nonneg|].
  split; [exact Hlen|].
  intros Hp. rewrite Hlen, Hp. unfold len in Hlt. lia.
Qed.

Lemma partial_mask_reveal_end_0_witness :
  partial_mask 2 0 "*" "a@b.com" = "a@" ++ "*****" ++ "a@b.com"
  /\ String.length (partial_mask 2 0 "*" "a@b.com") = 2 * 7.
Proof.
  destruct (partial_mask_reveal_end_0 2 "*" "a@b.com") as [Heq Hlen].
  - vm_compute; reflexivity.
  - split; [exact Heq|].
    destruct Hlen as (_ & _ & H); [lia|]. exact (H eq_refl).
Defined.

(** C4.  A match [m] with [len(m) <= reveal_start + reveal_end] is replaced
    by [len(m)] copies of the placeholder and nothing else; so it is when
    the reveal counts are not negative and one of them alone is at least
    [len(m)]. *)
Theorem partial_mask_full_mask (rs re : Z) (placeholder m : string) :
  (len m <= rs + re)%Z
  \/ ((0 <= rs)%Z /\ (0 <= re)%Z /\ (len m <= rs \/ len m <= re)%Z) ->
  partial_mask rs re placeholder m
  = repeat_str placeholder (String.length m).
Proof.
  intros H; apply partial_mask_short. lia.
Qed.

Lemma partial_mask_full_mask_witness :
  partial_mask 2 2 "*" "123" = "***"
  /\ partial_mask 0 9 "*" "123" = "***".
Proof.
  split.
  - apply (partial_mask_full_mask 2 2 "*" "123"). left. vm_compute. discriminate.
  - apply (partial_mask_full_mask 0 9 "*" "123"). right.
    repeat split; try lia. right. vm_compute. discriminate.
Defined.

(** ** The patterns in order *)

(** C5.  [mask_matches] applies the patterns in list order, each to the
    text the one before it produced.  With no pattern it returns the text;
    the mask of [text] by [pattern :: patterns] is the mask by [patterns]
    of the substitution of [pattern] in [text] (and the error of [pattern]
    when it does not compile); so for patterns that compile the result is
    the substitutions folded over the text from the first pattern to the
    last.  One substitution replaces the leftmost match first and resumes
    where that match ends, so its matches do not overlap. *)
Theorem mask_matches_in_list_order (E : Engine) (text pattern : string)
    (patterns : list string) (rs re : Z) (placeholder : string) :
  mask_matches E text [] rs re placeholder = inr text
  /\ mask_matches E text (pattern :: patterns) rs re placeholder
     = match compile E pattern with
       | None => inl (re_error pattern)
       | Some c =>
           mask_matches E (sub E c (partial_mask rs re placeholder) text)
             patterns rs re placeholder
       end
  /\ (forall compiled,
         Forall2 (fun p c => compile E p = Some c) patterns compiled ->
         mask_matches E text patterns rs re placeholder
         = inr (fold_left
                  (fun content c =>
                     sub E c (partial_mask rs re placeholder) content)
                  compiled text))
  /\ forall c b e,
       compile E pattern = Some c ->
       (forall i, i < b -> match_at E c text i false = None) ->
       match_at E c text b false = Some e ->
       b < e <= String.length text ->
       sub E c (partial_mask rs re placeholder) text
       = take b text
         ++ partial_mask rs re placeholder (slice text b e)
         ++ sub_walk E c (partial_mask rs re placeholder) text e
              (drop e text) 0.
Proof.
  split; [reflexivity|]. split; [|split].
  - unfold mask_matches; simpl.
    destruct (compile E pattern) as [c|]; [|reflexivity].
    destruct (compile_patterns E patterns); reflexivity.
  - intros compiled Hall. unfold mask_matches.
    replace (compile_patterns E patterns) with (@inr exn _ compiled);
      [reflexivity|].
    induction Hall as [|p c ps cs Hp _ IH]; simpl; [reflexivity|].
    now rewrite Hp, <- IH.
  - intros c b e _. apply sub_leftmost.
Qed.

Lemma mask_matches_in_list_order_witness :
  mask_matches MiniRe.engine "id 12 a@b.com" ["\d+"; email_rule] 1 1 "*"
  = inr "id ** a*****m"
  /\ mask_matches MiniRe.engine "id 12 a@b.com" ["12"; "\*\* a"] 1 1 "*"
     = inr "id ***a@b.com"
  /\ mask_matches MiniRe.engine "id 12 a@b.com" ["\*\* a"; "12"] 1 1 "*"
     = inr "id ** a@b.com"
  /\ sub MiniRe.engine
       (MiniRe.Cat (MiniRe.Rep (MiniRe.Chars false MiniRe.digits) 1 None)
          MiniRe.Empty)
       (partial_mask 1 1 "*") "id 12 a@b.com"
     = "id " ++ "**" ++ " a@b.com".
Proof.
  pose proof (mask_matches_in_list_order MiniRe.engine "id 12 a@b.com" "\d+"
                [email_rule] 1 1 "*") as (_ & Hcons & _ & Hleft).
  pose proof (mask_matches_in_list_order MiniRe.engine "id ** a@b.com"
                email_rule [] 1 1 "*") as (_ & Hcons' & _ & _).
  pose proof (mask_matches_in_list_order MiniRe.engine "id ** a*****m"
                email_rule [] 1 1 "*") as (Hnil & _).
  pose proof (mask_matches_in_list_order MiniRe.engine "id 12 a@b.com" "\d+"
                ["12"; "\*\* a"] 1 1 "*") as (_ & _ & Hfold & _).
  pose proof (mask_matches_in_list_order MiniRe.engine "id 12 a@b.com" "\d+"
                ["\*\* a"; "12"] 1 1 "*") as (_ & _ & Hfold' & _).
  split; [|split; [|split]].
  - rewrite Hcons.
    change (compile MiniRe.engine "\d+")
      with (Some (MiniRe.Cat
                    (MiniRe.Rep (MiniRe.Chars false MiniRe.digits) 1 None)
                    MiniRe.Empty)).
    cbv beta iota.
    rewrite (Hleft _ 3 5 eq_refl).
    + change (take 3 "id 12 a@b.com"
              ++ partial_mask 1 1 "*" (slice "id 12 a@b.com" 3 5)
              ++ sub_walk MiniRe.engine
                   (MiniRe.Cat
                      (MiniRe.Rep (MiniRe.Chars false MiniRe.digits) 1 None)
                      MiniRe.Empty)
                   (partial_mask 1 1 "*") "id 12 a@b.com" 5
                   (drop 5 "id 12 a@b.com") 0)
        with "id ** a@b.com".
      rewrite Hcons'.
      destruct (compile MiniRe.engine email_rule) as [c|] eqn:Hc;
        [|vm_compute in Hc; discriminate].
      vm_compute in Hc. inversion Hc; subst c.
      exact Hnil.
    + intros i Hi.
      destruct i as [|[|[|i]]]; [reflexivity | reflexivity | reflexivity | lia].
    + reflexivity.
    + simpl; lia.
  - eassert (Forall2 (fun p c => compile MiniRe.engine p = Some c)
               ["12"; "\*\* a"] _) as HF
      by (repeat constructor; vm_compute; reflexivity).
    rewrite (Hfold _ HF). vm_compute. reflexivity.
  - eassert (Forall2 (fun p c => compile MiniRe.engine p = Some c)
               ["\*\* a"; "12"] _) as HF
      by (repeat constructor; vm_compute; reflexivity).
    rewrite (Hfold' _ HF). vm_compute. reflexivity.
  - rewrite (Hleft _ 3 5 eq_refl).
    + reflexivity.
    + intros i Hi.
      destruct i as [|[|[|i]]]; [reflexivity | reflexivity | reflexivity | lia].
    + reflexivity.
    + simpl; lia.
Defined.

(** C10.  With no pattern, [mask_matches] returns its text unchanged; and it
    returns the empty text for the empty text, whatever the patterns, as
    long as each of them is a valid regular expression and the reveal counts
    are not negative. *)
Theorem mask_matches_identity (E : Engine) :
  (forall text rs re placeholder,
      mask_matches E text [] rs re placeholder = inr text)
  /\ (forall patterns rs re placeholder,
         Forall (valid E) patterns -> (0 <= rs)%Z -> (0 <= re)%Z ->
         mask_matches E "" patterns rs re placeholder = inr "").
Proof.
  split.
  - reflexivity.
  - intros patterns rs re placeholder Hvalid Hrs Hre.
    destruct (compile_patterns_valid E patterns Hvalid) as [cs Hcs].
    unfold mask_matches; rewrite Hcs.
    now rewrite apply_patterns_empty by lia.
Qed.

Lemma mask_matches_identity_witness :
  mask_matches MiniRe.engine "a@b.com" [] 2 2 "*" = inr "a@b.com"
  /\ mask_matches MiniRe.engine "" [email_rule; "x*"] 2 2 "*" = inr "".
Proof.
  destruct (mask_matches_identity MiniRe.engine) as [Hnil Hempty].
  split.
  - apply Hnil.
  - apply Hempty; [|lia|lia].
    repeat constructor; unfold valid; vm_compute; discriminate.
Defined.

(** ** The request *)

(** C6.  The masked text is the mask of the contents of all the messages of
    role [USER], joined by one space in their order.  After [process] the
    message at each index of the prompt is the one that was there, except
    the first message of role [USER], whose content is the masked text;
    without a response, the prompt that the result carries is that
    prompt. *)
Theorem process_overwrites_first_user_message (E : Engine)
    (prompt : RequestInput) (response : option ResponseOutput)
    (parameters : PatternRedactorParameters) (masked_content : string) :
  mask_matches E
    (String.concat " " (map content (filter is_user (messages prompt))))
    (rules parameters) (reveal_start parameters) (reveal_end parameters)
    (placeholder parameters)
  = inr masked_content ->
  (forall i m,
      nth_error (messages prompt) i = Some m ->
      nth_error
        (messages (prompt_after (process E prompt response parameters))) i
      = Some (if is_user m && no_user (firstn i (messages prompt))
              then {| content := masked_content; role := role m |}
              else m))
  /\ exists result,
       process E prompt None parameters
       = Returned result (prompt_after (process E prompt None parameters)) None
       /\ modified_prompt result
          = Some (prompt_after (process E prompt None parameters)).
Proof.
  intros Hmask. split.
  - intros i m Hnth.
    destruct (process_prompt_after E prompt response parameters
                masked_content Hmask) as [extra ->].
    apply nth_error_app_left, overwrite_user_input_nth, Hnth.
  - unfold process, mask, user_input, join; rewrite Hmask; simpl.
    destruct (debug_echo parameters); simpl; eexists; split; reflexivity.
Qed.

Lemma process_overwrites_first_user_message_witness :
  let prompt :=
    {| messages := [ {| content := "be brief"; role := SYSTEM |};
                     {| content := "secret:123"; role := USER |};
                     {| content := "public"; role := USER |} ] |} in
  let after :=
    prompt_after (process MiniRe.engine prompt None (default_parameters ["123"])) in
  nth_error (messages after) 0 = Some {| content := "be brief"; role := SYSTEM |}
  /\ nth_error (messages after) 1
     = Some {| content := "secret:*** public"; role := USER |}
  /\ nth_error (messages after) 2 = Some {| content := "public"; role := USER |}.
Proof.
  intros prompt after.
  assert (mask_matches MiniRe.engine
            (String.concat " " (map content (filter is_user (messages prompt))))
            ["123"] 2 2 "*" = inr "secret:*** public") as Hmask
    by (vm_compute; reflexivity).
  destruct (process_overwrites_first_user_message MiniRe.engine prompt None
              (default_parameters ["123"]) "secret:*** public" Hmask)
    as [Hnth _].
  split; [|split].
  - exact (Hnth 0 _ eq_refl).
  - exact (Hnth 1 _ eq_refl).
  - exact (Hnth 2 _ eq_refl).
Defined.

(** ** The response *)

(** C7.  When the first choice of the response has a message (and, as in
    the SDK's response type, so has every other choice), [process] returns
    and leaves in every choice the mask of the first choice's original
    content, whatever the choice held; without [debug_echo] the result
    carries that response. *)
Theorem process_broadcasts_first_choice (E : Engine) (prompt : RequestInput)
    (r : ResponseOutput) (choice0 : Choice) (cs : list Choice) (m0 : Message)
    (parameters : PatternRedactorParameters) (masked : string) :
  choices r = Some (choice0 :: cs) ->
  message choice0 = Some m0 ->
  Forall (fun c => message c <> None) cs ->
  mask_matches E (content m0) (rules parameters) (reveal_start parameters)
    (reveal_end parameters) (placeholder parameters)
  = inr masked ->
  exists result prompt' cs',
    process E prompt (Some r) parameters
    = Returned result prompt' (Some {| choices := Some cs' |})
    /\ Forall2
         (fun c c' =>
            exists m, message c = Some m /\
                      message c' = Some {| content := masked; role := role m |})
         (choice0 :: cs) cs'
    /\ modified_response result
       = if debug_echo parameters then None
         else Some {| choices := Some cs' |}.
Proof.
  intros Hcs H0 Hall Hmask.
  destruct (mask_matches_returns E _ (user_input prompt) _ _ _ _ _ Hmask)
    as [masked_content Hreq].
  assert (Forall (fun c => message c <> None) (choice0 :: cs)) as Hall'
    by (constructor; [congruence | exact Hall]).
  destruct (write_back_all masked _ Hall') as (cs' & Hwb & Hcs').
  unfold process, mask. rewrite Hreq.
  unfold mask_response, extract_response, mask.
  rewrite Hcs, H0, Hmask, Hwb.
  destruct (debug_echo parameters); do 3 eexists; repeat split; exact Hcs'.
Qed.

Lemma process_broadcasts_first_choice_witness :
  let assistant text :=
    {| message := Some {| content := text; role := ASSISTANT |} |} in
  exists result prompt',
    process MiniRe.engine
      {| messages := [ {| content := "who?"; role := USER |} ] |}
      (Some {| choices := Some [assistant "call 081-234-5678";
                                assistant "no number here"] |})
      (default_parameters [mobile_rule])
    = Returned result prompt'
        (Some {| choices := Some [assistant "call 08********78";
                                  assistant "call 08********78"] |}).
Proof.
  intros assistant.
  destruct (process_broadcasts_first_choice MiniRe.engine
              {| messages := [ {| content := "who?"; role := USER |} ] |}
              {| choices := Some [assistant "call 081-234-5678";
                                  assistant "no number here"] |}
              (assistant "call 081-234-5678") [assistant "no number here"]
              {| content := "call 081-234-5678"; role := ASSISTANT |}
              (default_parameters [mobile_rule]) "call 08********78")
    as (result & prompt' & cs' & Hp & Hall & _).
  - reflexivity.
  - reflexivity.
  - repeat constructor; discriminate.
  - vm_compute; reflexivity.
  - exists result, prompt'. rewrite Hp. do 3 f_equal.
    inversion Hall as [|? c1 ? l1 (m1 & Hm1 & Hc1) Hrest]; subst.
    inversion Hrest as [|? c2 ? l2 (m2 & Hm2 & Hc2) Hnil]; subst.
    inversion Hnil; subst.
    inversion Hm1; inversion Hm2; subst.
    destruct c1 as [x1], c2 as [x2]; simpl in Hc1, Hc2; subst.
    reflexivity.
Defined.

(** C8 (the code departs from the claim).  A response without the attribute
    [choices], or whose first choice has no message, makes [process] raise
    for every engine, prompt and parameters: [AttributeError] on
    [response.choices] in the first case and [UnboundLocalError] on
    [masked_response_content] in the second, when the rules compile. *)
Theorem process_raises_on_deficient_response (E : Engine)
    (prompt : RequestInput) (parameters : PatternRedactorParameters) :
  (exists e prompt' response',
      process E prompt (Some {| choices := None |}) parameters
      = Raised e prompt' response')
  /\ (forall cs, exists e prompt' response',
         process E prompt
           (Some {| choices := Some ({| message := None |} :: cs) |})
           parameters
         = Raised e prompt' response')
  /\ (let hello := {| messages := [ {| content := "hello"; role := USER |} ] |} in
      process MiniRe.engine hello (Some {| choices := None |})
        (default_parameters [email_rule])
      = Raised (AttributeError "choices") hello (Some {| choices := None |})
      /\ process MiniRe.engine hello
           (Some {| choices := Some [ {| message := None |} ] |})
           (default_parameters [email_rule])
         = Raised (UnboundLocalError "masked_response_content") hello
             (Some {| choices := Some [ {| message := None |} ] |})).
Proof.
  split; [|split].
  - unfold process.
    destruct (mask E parameters (user_input prompt)); simpl; eauto.
  - intros cs. unfold process.
    destruct (mask E parameters (user_input prompt)); simpl; eauto.
  - split; vm_compute; reflexivity.
Qed.

(** The deficient responses that [process] does take: an absent response
    and an empty list of choices leave everything but the prompt as it
    was. *)
Lemma process_nothing_to_write (E : Engine) (prompt : RequestInput)
    (parameters : PatternRedactorParameters) (masked_content : string) :
  mask E parameters (user_input prompt) = inr masked_content ->
  (exists result prompt',
      process E prompt None parameters = Returned result prompt' None)
  /\ (exists result prompt',
         process E prompt (Some {| choices := Some [] |}) parameters
         = Returned result prompt' (Some {| choices := Some [] |})).
Proof.
  intros H; unfold process; rewrite H; simpl.
  destruct (debug_echo parameters); split; eauto.
Qed.

(** ** Rules that are not regular expressions *)

(** C9, as stated, at the rule [(]: the parameters that hold it are a
    configuration like any other, and the error comes out of [process],
    for each request it is given. *)
Lemma invalid_rule_surfaces_in_process :
  let parameters := default_parameters [national_id_rule; "("] in
  let first :=
    {| messages := [ {| content := "my id is 1234567890123"; role := USER |} ] |} in
  let second := {| messages := [ {| content := "hello"; role := USER |} ] |} in
  rules parameters = [national_id_rule; "("]
  /\ process MiniRe.engine first None parameters
     = Raised (re_error "(") first None
  /\ process MiniRe.engine second None parameters
     = Raised (re_error "(") second None.
Proof. repeat split. Qed.

(** C9 (amended).  When a rule of the parameters is not a valid regular
    expression, every call of [mask_matches] with these rules raises the
    error of the first such rule, whatever the text, before it masks
    anything; so every call of [process] raises it at its first mask and
    leaves the prompt and the response untouched.  Each call compiles the
    rules anew. *)
Theorem invalid_rule_raises_on_every_call (E : Engine)
    (parameters : PatternRedactorParameters) :
  Exists (fun rule => compile E rule = None) (rules parameters) ->
  exists bad,
    In bad (rules parameters)
    /\ compile E bad = None
    /\ (forall text rs re placeholder,
           mask_matches E text (rules parameters) rs re placeholder
           = inl (re_error bad))
    /\ (forall prompt response,
           process E prompt response parameters
           = Raised (re_error bad) prompt response).
Proof.
  intros H.
  destruct (compile_patterns_invalid E _ H) as (bad & Hin & Hbad & Hc).
  exists bad. repeat split; auto.
  - intros; unfold mask_matches; now rewrite Hc.
  - intros; apply process_invalid_rule.
    unfold mask, mask_matches; now rewrite Hc.
Qed.

Lemma invalid_rule_raises_on_every_call_witness :
  exists bad,
    In bad [national_id_rule; "[a"; "("]
    /\ mask_matches MiniRe.engine "my id is 1234567890123"
         [national_id_rule; "[a"; "("] 2 2 "*"
       = inl (re_error bad).
Proof.
  destruct (invalid_rule_raises_on_every_call MiniRe.engine
              (default_parameters [national_id_rule; "[a"; "("]))
    as (bad & Hin & _ & Hmask & _).
  - apply Exists_cons_tl, Exists_cons_hd. reflexivity.
  - exists bad; split; [exact Hin | apply Hmask].
Defined.

(* ------------------------------------------------------------------ *)
(** * Further properties of the masking routine *)

Module MoreMaskFacts.
Import PyStr PyStrFacts Redactor MaskFacts SubFacts.

(** ** Characters by index *)

Lemma get_app (s t : string) (i : nat) :
  String.get i (s ++ t)
  = if (i <? String.length s)%nat then String.get i s
    else String.get (i - String.length s) t.
Proof.
  revert i; induction s as [|c s IH]; intros i; simpl.
  - now rewrite Nat.sub_0_r.
  - destruct i as [|i]; [reflexivity|]. apply IH.
Qed.

Lemma get_take (n : nat) (s : string) (i : nat) :
  String.get i (take n s) = if (i <? n)%nat then String.get i s else None.
Proof.
  revert s i; induction n as [|n IH]; intros s i.
  - rewrite take_0. now destruct i.
  - destruct s as [|c s]; simpl.
    + now destruct (i <? S n)%nat.
    + destruct i as [|i]; [reflexivity | apply IH].
Qed.

Lemma get_drop (n : nat) (s : string) (i : nat) :
  String.get i (drop n s) = String.get (n + i) s.
Proof.
  revert s; induction n as [|n IH]; intros s.
  - now rewrite drop_0.
  - destruct s as [|c s]; simpl; [now destruct i | apply IH].
Qed.

Lemma get_repeat_char (c : ascii) (n i : nat) :
  String.get i (repeat_str (String c "") n)
  = if (i <? n)%nat then Some c else None.
Proof.
  revert i; induction n as [|n IH]; intros i; simpl; [reflexivity|].
  destruct i as [|i]; [reflexivity | apply IH].
Qed.

(** ** Lists of patterns *)

Section Patterns.

Variable E : Engine.

Lemma compile_patterns_app (ps qs : list string) :
  compile_patterns E (ps ++ qs)
  = match compile_patterns E ps with
    | inl e => inl e
    | inr cs =>
        match compile_patterns E qs with
        | inl e => inl e
        | inr ds => inr (cs ++ ds)%list
        end
    end.
Proof.
  induction ps as [|p ps IH]; simpl.
  - now destruct (compile_patterns E qs).
  - destruct (compile E p) as [c|]; [|reflexivity].
    rewrite IH.
    destruct (compile_patterns E ps); [reflexivity|].
    now destruct (compile_patterns E qs).
Qed.

Lemma compile_patterns_returns (patterns : list string)
    (compiled : list (Pattern E)) :
  compile_patterns E patterns = inr compiled -> Forall (valid E) patterns.
Proof.
  revert compiled; induction patterns as [|p ps IH]; intros compiled H.
  - constructor.
  - simpl in H. destruct (compile E p) as [c|] eqn:Hc; [|discriminate].
    destruct (compile_patterns E ps) as [|cs]; [discriminate|].
    constructor; [unfold valid; congruence | eapply IH; reflexivity].
Qed.

(** A pattern that has no match but empty ones leaves the subject as it
    is, when the replacement of the empty text is empty. *)
Lemma sub_walk_only_empty (p : Pattern E) (repl : string -> string)
    (s : string) :
  repl "" = "" ->
  (forall i must_advance e,
      i <= String.length s -> match_at E p s i must_advance = Some e -> e <= i) ->
  forall rest pos,
    pos + String.length rest = String.length s ->
    sub_walk E p repl s pos rest 0 = rest.
Proof.
  intros Hrepl Hempty.
  assert (forall pos, pos <= String.length s ->
                      at_pos E p repl s pos = ("", 0)) as Hat.
  { intros pos Hpos. unfold at_pos.
    destruct (match_at E p s pos false) as [e|] eqn:H1; [|reflexivity].
    pose proof (Hempty _ _ _ Hpos H1) as He.
    destruct (Nat.ltb_spec pos e); [lia|].
    rewrite (slice_empty s pos e He), Hrepl.
    destruct (match_at E p s pos true) as [e'|] eqn:H2; [|reflexivity].
    pose proof (Hempty _ _ _ Hpos H2) as He'.
    rewrite (slice_empty s pos e' He'), Hrepl.
    now replace (e' - pos) with 0 by lia. }
  induction rest as [|c rest IH]; intros pos Hpos; simpl.
  - now rewrite Hat by lia.
  - rewrite Hat by lia. simpl in Hpos. simpl. f_equal. apply IH. lia.
Qed.

End Patterns.

End MoreMaskFacts.

Import MoreMaskFacts.

(** X1.  With rules that all compile, a placeholder of one character and at
    least one character revealed at the end, [mask_matches] returns a text
    exactly as long as its input, whatever the rules match. *)
Theorem mask_keeps_length (E : Engine) (text : string)
    (patterns : list string) (rs re : Z) (placeholder : string) :
  Forall (valid E) patterns ->
  String.length placeholder = 1 -> (0 <= rs)%Z -> (0 < re)%Z ->
  exists out,
    mask_matches E text patterns rs re placeholder = inr out
    /\ String.length out = String.length text.
Proof.
  intros Hvalid Hp Hrs Hre.
  destruct (compile_patterns_valid E patterns Hvalid) as [cs Hcs].
  unfold mask_matches; rewrite Hcs.
  eexists; split; [reflexivity|].
  apply apply_patterns_length.
  intros m; apply partial_mask_length; auto; lia.
Qed.

Lemma mask_keeps_length_witness :
  exists out,
    mask_matches MiniRe.engine "mail a@b.com, id 1234567890123"
      [email_rule; national_id_rule] 2 2 "*" = inr out
    /\ String.length out = 30.
Proof.
  apply (mask_keeps_length MiniRe.engine "mail a@b.com, id 1234567890123"
           [email_rule; national_id_rule] 2 2 "*").
  - repeat constructor; unfold valid; vm_compute; discriminate.
  - reflexivity.
  - lia.
  - lia.
Defined.

(** X2.  For a match longer than [reveal_start + reveal_end], a placeholder
    of one character [c] and [reveal_end] at least 1, the replacement has
    the length of the match, the character of the match at every index
    below [reveal_start] and at each of the last [reveal_end] indices, and
    [c] at every index between. *)
Theorem partial_mask_positions (rs re : Z) (c : ascii) (m : string) :
  (0 <= rs)%Z -> (0 < re)%Z -> (rs + re < len m)%Z ->
  String.length (partial_mask rs re (String c "") m) = String.length m
  /\ forall i,
       i < String.length m ->
       String.get i (partial_mask rs re (String c "") m)
       = if (i <? Z.to_nat rs)%nat || (String.length m - Z.to_nat re <=? i)%nat
         then String.get i m
         else Some c.
Proof.
  intros Hrs Hre Hlong. split.
  - apply partial_mask_length; auto; lia.
  - intros i Hi. rewrite partial_mask_reveal by assumption.
    unfold len in Hlong.
    rewrite !get_app, get_take, get_repeat_char, get_drop.
    rewrite length_take, length_repeat_str; simpl String.length.
    rewrite Nat.mul_1_r.
    replace (Nat.min (Z.to_nat rs) (String.length m)) with (Z.to_nat rs) by lia.
    destruct (Nat.ltb_spec i (Z.to_nat rs)); simpl; [reflexivity|].
    destruct (Nat.leb_spec (String.length m - Z.to_nat re) i);
      destruct (Nat.ltb_spec (i - Z.to_nat rs)
                  (String.length m - Z.to_nat rs - Z.to_nat re));
      try lia; [|reflexivity].
    f_equal; lia.
Qed.

Lemma partial_mask_positions_witness :
  String.get 1 (partial_mask 2 1 "*" "secret") = Some "e"%char
  /\ String.get 2 (partial_mask 2 1 "*" "secret") = Some "*"%char
  /\ String.get 5 (partial_mask 2 1 "*" "secret") = Some "t"%char.
Proof.
  destruct (partial_mask_positions 2 1 "*"%char "secret") as [_ H];
    [lia | lia | vm_compute; reflexivity |].
  split; [|split].
  - apply (H 1). simpl; lia.
  - apply (H 2). simpl; lia.
  - apply (H 5). simpl; lia.
Defined.

(** X3.  Masking by two lists of rules one after the other is masking by
    their concatenation: the rules of [qs] see the text the rules of [ps]
    produced, and the first rule that does not compile raises in both. *)
Theorem mask_matches_app (E : Engine) (text : string) (ps qs : list string)
    (rs re : Z) (placeholder : string) :
  mask_matches E text (ps ++ qs) rs re placeholder
  = match mask_matches E text ps rs re placeholder with
    | inl e => inl e
    | inr text' => mask_matches E text' qs rs re placeholder
    end.
Proof.
  unfold mask_matches. rewrite compile_patterns_app.
  destruct (compile_patterns E ps) as [|cs]; [reflexivity|].
  destruct (compile_patterns E qs) as [|ds]; [reflexivity|].
  unfold apply_patterns. now rewrite fold_left_app.
Qed.

(** X4.  A text in which no rule has a match that is not empty comes back
    unchanged, when the rules compile and [reveal_start + reveal_end] is
    not negative. *)
Theorem mask_unchanged_without_match (E : Engine) (text : string)
    (patterns : list string) (rs re : Z) (placeholder : string) :
  Forall
    (fun pattern =>
       exists c,
         compile E pattern = Some c
         /\ forall i must_advance e,
              i <= String.length text ->
              match_at E c text i must_advance = Some e -> e <= i)
    patterns ->
  (0 <= rs + re)%Z ->
  mask_matches E text patterns rs re placeholder = inr text.
Proof.
  intros Hall Hsum. unfold mask_matches.
  induction Hall as [|pattern patterns (c & Hc & Hempty) _ IH]; simpl.
  - reflexivity.
  - rewrite Hc.
    destruct (compile_patterns E patterns) as [|cs]; [discriminate IH|].
    simpl. unfold sub.
    rewrite sub_walk_only_empty; [exact IH | | exact Hempty | reflexivity].
    rewrite partial_mask_short by (unfold len; simpl; lia). reflexivity.
Qed.

Lemma mask_unchanged_without_match_witness :
  mask_matches MiniRe.engine "abc" ["\d*"] 2 2 "*" = inr "abc".
Proof.
  apply (mask_unchanged_without_match MiniRe.engine "abc" ["\d*"] 2 2 "*");
    [|lia].
  constructor; [|constructor].
  eexists; split; [vm_compute; reflexivity|].
  intros i must_advance e Hi H.
  destruct i as [|[|[|[|i]]]]; [| | | |simpl in Hi; lia];
    destruct must_advance; vm_compute in H; inversion H; lia.
Defined.

(** X5.  [mask_matches] returns for a list of rules exactly when each rule
    compiles; the text, the reveal counts and the placeholder have no part
    in it. *)
Theorem mask_matches_returns_iff_valid (E : Engine) (text : string)
    (patterns : list string) (rs re : Z) (placeholder : string) :
  (exists out, mask_matches E text patterns rs re placeholder = inr out)
  <-> Forall (valid E) patterns.
Proof.
  unfold mask_matches; split.
  - intros [out H].
    destruct (compile_patterns E patterns) as [|cs] eqn:Hcs; [discriminate|].
    eapply compile_patterns_returns, Hcs.
  - intros H. destruct (compile_patterns_valid E patterns H) as [cs ->].
    eauto.
Qed.

Lemma mask_matches_returns_iff_valid_witness :
  (exists out,
      mask_matches MiniRe.engine "a@b.com" [email_rule; mobile_rule] 0 3 "#"
      = inr out)
  /\ Forall (valid MiniRe.engine) [email_rule; mobile_rule].
Proof.
  assert (Forall (valid MiniRe.engine) [email_rule; mobile_rule]) as H
    by (repeat constructor; unfold valid; vm_compute; discriminate).
  split; [|exact H].
  apply (proj2 (mask_matches_returns_iff_valid MiniRe.engine "a@b.com"
                  [email_rule; mobile_rule] 0 3 "#")), H.
Defined.

(* ------------------------------------------------------------------ *)
(** * Further properties of [process] *)

Module MoreProcessFacts.
Import PyStr PyStrFacts Redactor MaskFacts SubFacts Processor ProcessFacts.

Lemma overwrite_user_input_roles (masked : string) (ms : list Message) :
  map role (overwrite_user_input masked ms) = map role ms.
Proof.
  induction ms as [|m ms IH]; simpl; [reflexivity|].
  destruct (is_user m); simpl; [reflexivity | now rewrite IH].
Qed.

Lemma overwrite_user_input_no_user (masked : string) (ms : list Message) :
  no_user ms = true -> overwrite_user_input masked ms = ms.
Proof.
  induction ms as [|m ms IH]; simpl; [reflexivity|].
  destruct (is_user m); simpl; [discriminate|].
  intros H; now rewrite IH.
Qed.

Lemma user_input_no_user (prompt : RequestInput) :
  no_user (messages prompt) = true -> user_input prompt = "".
Proof.
  unfold user_input, no_user. destruct prompt as [ms]; simpl.
  induction ms as [|m ms IH]; simpl; [reflexivity|].
  destruct (is_user m); simpl; [discriminate | exact IH].
Qed.

(** The only message of role [USER]. *)
Lemma only_user (ms : list Message) (u m : Message) (i : nat) :
  filter is_user ms = [u] ->
  nth_error ms i = Some m -> is_user m = true -> m = u.
Proof.
  intros Hf Hnth Hu.
  assert (In m (filter is_user ms)) as Hin
    by (apply filter_In; split; [eapply nth_error_In, Hnth | exact Hu]).
  rewrite Hf in Hin. destruct Hin as [->|[]]. reflexivity.
Qed.

(** The loop stops at the first choice that has no message; the choices
    before it hold the masked text. *)
Lemma write_back_stops (masked : string) (pre post : list Choice) :
  Forall (fun c => message c <> None) pre ->
  exists pre',
    write_back (Some masked) (pre ++ {| message := None |} :: post)
    = ((pre' ++ {| message := None |} :: post)%list,
       Some (AttributeError "message"))
    /\ Forall2
         (fun c c' =>
            exists m, message c = Some m /\
                      message c' = Some {| content := masked; role := role m |})
         pre pre'.
Proof.
  induction 1 as [|c pre Hc _ (pre' & IH & Hall)]; simpl.
  - exists []; split; [reflexivity | constructor].
  - destruct (message c) as [m|] eqn:Hm; [|congruence].
    rewrite IH. eexists (_ :: pre'); split; [reflexivity|].
    constructor; [|exact Hall]. exists m; simpl; auto.
Qed.

End MoreProcessFacts.

Import MoreProcessFacts.

(** X6.  Whatever [process] does, it neither drops, reorders nor changes
    the role of a message: the roles of the prompt it leaves are the roles
    it found, followed by one [SYSTEM] at most (the debug echo). *)
Theorem process_keeps_roles (E : Engine) (prompt : RequestInput)
    (response : option ResponseOutput)
    (parameters : PatternRedactorParameters) :
  exists extra,
    map role (messages (prompt_after (process E prompt response parameters)))
    = (map role (messages prompt) ++ extra)%list
    /\ (extra = [] \/ extra = [SYSTEM]).
Proof.
  unfold process.
  destruct (mask E parameters (user_input prompt)) as [e|masked]; simpl.
  - exists []; split; [now rewrite app_nil_r | now left].
  - destruct (mask_response E parameters response) as [r1 [e|]]; simpl.
    + exists []. rewrite overwrite_user_input_roles, app_nil_r. auto.
    + destruct (debug_echo parameters); simpl.
      * exists [SYSTEM].
        rewrite map_app, overwrite_user_input_roles. auto.
      * exists []. rewrite overwrite_user_input_roles, app_nil_r. auto.
Qed.

(** X7.  A prompt without a message of role [USER] keeps all its messages
    as they are, when the rules compile and the reveal counts are not
    negative; the debug echo it may get holds the empty text. *)
Theorem process_without_user_message (E : Engine) (prompt : RequestInput)
    (response : option ResponseOutput)
    (parameters : PatternRedactorParameters) :
  no_user (messages prompt) = true ->
  Forall (valid E) (rules parameters) ->
  (0 <= reveal_start parameters)%Z -> (0 <= reveal_end parameters)%Z ->
  exists extra,
    messages (prompt_after (process E prompt response parameters))
    = (messages prompt ++ extra)%list
    /\ (extra = [] \/ extra = [ {| content := ""; role := SYSTEM |} ]).
Proof.
  intros Hno Hvalid Hrs Hre.
  destruct (compile_patterns_valid E _ Hvalid) as [cs Hcs].
  assert (mask E parameters (user_input prompt) = inr "") as Hmask.
  { rewrite (user_input_no_user prompt Hno).
    unfold mask, mask_matches; rewrite Hcs.
    now rewrite apply_patterns_empty by lia. }
  unfold process; rewrite Hmask.
  rewrite (overwrite_user_input_no_user "" _ Hno).
  destruct (mask_response E parameters response) as [r1 [e|]]; simpl.
  - exists []; split; [now rewrite app_nil_r | now left].
  - destruct (debug_echo parameters); simpl.
    + eexists; split; [reflexivity | now right].
    + exists []; split; [now rewrite app_nil_r | now left].
Qed.

Lemma process_without_user_message_witness :
  let prompt :=
    {| messages := [ {| content := "id 1234567890123"; role := SYSTEM |};
                     {| content := "ok"; role := ASSISTANT |} ] |} in
  exists extra,
    messages
      (prompt_after
         (process MiniRe.engine prompt None
            (default_parameters [national_id_rule])))
    = (messages prompt ++ extra)%list
    /\ (extra = [] \/ extra = [ {| content := ""; role := SYSTEM |} ]).
Proof.
  intros prompt.
  apply (process_without_user_message MiniRe.engine prompt None
           (default_parameters [national_id_rule])).
  - reflexivity.
  - repeat constructor; unfold valid; vm_compute; discriminate.
  - simpl; lia.
  - simpl; lia.
Defined.

(** X8.  With an empty list of rules [process] still rewrites the prompt:
    the first message of role [USER] gets the contents of all the messages
    of that role, joined by spaces.  Only a prompt with a single message of
    role [USER] keeps every message as it is. *)
Theorem process_without_rules (E : Engine) (prompt : RequestInput)
    (response : option ResponseOutput)
    (parameters : PatternRedactorParameters) :
  rules parameters = [] ->
  (forall i m,
      nth_error (messages prompt) i = Some m ->
      nth_error
        (messages (prompt_after (process E prompt response parameters))) i
      = Some (if is_user m && no_user (firstn i (messages prompt))
              then {| content :=
                        String.concat " "
                          (map content (filter is_user (messages prompt)));
                      role := role m |}
              else m))
  /\ (forall u,
         filter is_user (messages prompt) = [u] ->
         forall i m,
           nth_error (messages prompt) i = Some m ->
           nth_error
             (messages (prompt_after (process E prompt response parameters))) i
           = Some m).
Proof.
  intros Hrules.
  assert (mask E parameters (user_input prompt) = inr (user_input prompt))
    as Hmask by (unfold mask; now rewrite Hrules).
  assert (forall i m,
      nth_error (messages prompt) i = Some m ->
      nth_error
        (messages (prompt_after (process E prompt response parameters))) i
      = Some (if is_user m && no_user (firstn i (messages prompt))
              then {| content := user_input prompt; role := role m |}
              else m)) as Hnth.
  { intros i m H.
    destruct (process_prompt_after E prompt response parameters _ Hmask)
      as [extra ->].
    apply nth_error_app_left, overwrite_user_input_nth, H. }
  split; [exact Hnth|].
  intros u Hu i m H. rewrite (Hnth i m H).
  destruct (is_user m) eqn:Hm; [|reflexivity].
  destruct (no_user (firstn i (messages prompt))); [|reflexivity].
  simpl. rewrite (only_user _ u m i Hu H Hm).
  unfold user_input, join. rewrite Hu. simpl.
  now destruct u.
Qed.

Lemma process_without_rules_witness :
  let prompt :=
    {| messages := [ {| content := "one"; role := USER |};
                     {| content := "two"; role := USER |} ] |} in
  nth_error
    (messages
       (prompt_after
          (process MiniRe.engine prompt None (default_parameters [])))) 0
  = Some {| content := "one two"; role := USER |}.
Proof.
  intros prompt.
  destruct (process_without_rules MiniRe.engine prompt None
              (default_parameters []) eq_refl) as [H _].
  exact (H 0 _ eq_refl).
Defined.

(** X9.  When the first choice has a message and a later choice has none,
    [process] raises [AttributeError] in the middle of the write-back: the
    choices before that one already hold the mask of the first choice's
    text, that one and the choices after it are as they were. *)
Theorem process_stops_at_choice_without_message (E : Engine)
    (prompt : RequestInput) (r : ResponseOutput) (choice0 : Choice)
    (pre post : list Choice) (m0 : Message)
    (parameters : PatternRedactorParameters) (masked : string) :
  choices r = Some (choice0 :: pre ++ {| message := None |} :: post)%list ->
  message choice0 = Some m0 ->
  Forall (fun c => message c <> None) pre ->
  mask_matches E (content m0) (rules parameters) (reveal_start parameters)
    (reveal_end parameters) (placeholder parameters)
  = inr masked ->
  exists prompt' pre',
    process E prompt (Some r) parameters
    = Raised (AttributeError "message") prompt'
        (Some {| choices :=
                   Some (pre' ++ {| message := None |} :: post)%list |})
    /\ Forall2
         (fun c c' =>
            exists m, message c = Some m /\
                      message c' = Some {| content := masked; role := role m |})
         (choice0 :: pre) pre'.
Proof.
  intros Hcs H0 Hall Hmask.
  destruct (mask_matches_returns E _ (user_input prompt) _ _ _ _ _ Hmask)
    as [masked_content Hreq].
  assert (Forall (fun c => message c <> None) (choice0 :: pre)) as Hall'
    by (constructor; [congruence | exact Hall]).
  destruct (write_back_stops masked _ post Hall') as (pre' & Hwb & Hpre').
  unfold process, mask. rewrite Hreq.
  unfold mask_response, extract_response, mask.
  rewrite Hcs, H0, Hmask. simpl app in Hwb. rewrite Hwb.
  eauto.
Qed.

Lemma process_stops_at_choice_without_message_witness :
  let assistant text :=
    {| message := Some {| content := text; role := ASSISTANT |} |} in
  exists prompt',
    process MiniRe.engine
      {| messages := [ {| content := "who?"; role := USER |} ] |}
      (Some {| choices := Some [assistant "call 081-234-5678";
                                {| message := None |};
                                assistant "or 089-876-5432"] |})
      (default_parameters [mobile_rule])
    = Raised (AttributeError "message") prompt'
        (Some {| choices := Some [assistant "call 08********78";
                                  {| message := None |};
                                  assistant "or 089-876-5432"] |}).
Proof.
  intros assistant.
  destruct (process_stops_at_choice_without_message MiniRe.engine
              {| messages := [ {| content := "who?"; role := USER |} ] |}
              {| choices := Some [assistant "call 081-234-5678";
                                  {| message := None |};
                                  assistant "or 089-876-5432"] |}
              (assistant "call 081-234-5678") []
              [assistant "or 089-876-5432"]
              {| content := "call 081-234-5678"; role := ASSISTANT |}
              (default_parameters [mobile_rule]) "call 08********78")
    as (prompt' & pre' & Hp & Hall).
  - reflexivity.
  - reflexivity.
  - constructor.
  - vm_compute; reflexivity.
  - exists prompt'. rewrite Hp. do 3 f_equal.
    inversion Hall as [|? c1 ? l1 (m1 & Hm1 & Hc1) Hnil]; subst.
    inversion Hnil; subst. inversion Hm1; subst.
    destruct c1 as [x1]; simpl in Hc1; subst. reflexivity.
Defined.

(** X10.  [process] returns, for every prompt, whenever the rules compile
    and the response is absent or has a list of choices that each have a
    message (the empty list too). *)
Theorem process_returns_on_typed_response (E : Engine)
    (prompt : RequestInput) (response : option ResponseOutput)
    (parameters : PatternRedactorParameters) :
  Forall (valid E) (rules parameters) ->
  match response with
  | None => True
  | Some r =>
      exists cs, choices r = Some cs
                 /\ Forall (fun c => message c <> None) cs
  end ->
  exists result prompt' response',
    process E prompt response parameters = Returned result prompt' response'.
Proof.
  intros Hvalid Hresp.
  destruct (compile_patterns_valid E _ Hvalid) as [compiled Hc].
  assert (forall text, exists out, mask E parameters text = inr out) as Hmask
    by (intros; unfold mask, mask_matches; rewrite Hc; eauto).
  unfold process.
  destruct (Hmask (user_input prompt)) as [masked_content ->].
  assert (exists response',
             mask_response E parameters response = (response', None))
    as [response' ->].
  { destruct response as [r|]; [|simpl; eauto].
    destruct Hresp as (cs & Hcs & Hall).
    unfold mask_response, extract_response. rewrite Hcs.
    destruct cs as [|choice0 cs]; [simpl; eauto|].
    inversion Hall as [|? ? H0 _]; subst.
    destruct (message choice0) as [m0|] eqn:Hm0; [|congruence].
    destruct (Hmask (content m0)) as [masked ->].
    destruct (write_back_all masked _ Hall) as (cs' & -> & _). eauto. }
  destruct (debug_echo parameters); eauto.
Qed.

Lemma process_returns_on_typed_response_witness :
  exists result prompt' response',
    process MiniRe.engine
      {| messages := [ {| content := "mail a@b.com"; role := USER |} ] |}
      (Some {| choices := Some [] |})
      (default_parameters [email_rule; mobile_rule])
    = Returned result prompt' response'.
Proof.
  apply (process_returns_on_typed_response MiniRe.engine
           {| messages := [ {| content := "mail a@b.com"; role := USER |} ] |}
           (Some {| choices := Some [] |})
           (default_parameters [email_rule; mobile_rule])).
  - repeat constructor; unfold valid; vm_compute; discriminate.
  - exists []; split; [reflexivity | constructor].
Defined.

(** X11.  What a returned result carries.  With [debug_echo] it is the
    prompt alone, whose last message is a new [SYSTEM] message with the
    masked user text, and never the response, masked or not.  Without
    [debug_echo] the prompt has as many messages as before, and the result
    carries the response when there is one and the prompt when there is
    none. *)
Theorem process_result_carries (E : Engine) (prompt : RequestInput)
    (response : option ResponseOutput)
    (parameters : PatternRedactorParameters) (result : Result)
    (prompt' : RequestInput) (response' : option ResponseOutput) :
  process E prompt response parameters = Returned result prompt' response' ->
  exists masked,
    mask_matches E (user_input prompt) (rules parameters)
      (reveal_start parameters) (reveal_end parameters)
      (placeholder parameters) = inr masked
    /\ if debug_echo parameters then
         messages prompt'
         = (overwrite_user_input masked (messages prompt)
            ++ [ {| content := masked; role := SYSTEM |} ])%list
         /\ modified_prompt result = Some prompt'
         /\ modified_response result = None
       else
         messages prompt' = overwrite_user_input masked (messages prompt)
         /\ List.length (messages prompt') = List.length (messages prompt)
         /\ modified_response result = response'
         /\ modified_prompt result
            = match response with
              | None => Some prompt'
              | Some _ => None
              end.
Proof.
  unfold process, mask.
  destruct (mask_matches E (user_input prompt) _ _ _ _) as [e|masked];
    [discriminate|].
  intros H. exists masked; split; [reflexivity|].
  destruct (mask_response E parameters response) as [r1 [e|]] eqn:Hr;
    [discriminate|].
  assert (response = None <-> r1 = None) as Hnone.
  { unfold mask_response in Hr. destruct response as [r|].
    - destruct (extract_response E parameters r); [discriminate Hr|].
      destruct (choices r); [|discriminate Hr].
      destruct (write_back _ _); inversion Hr; subst. split; discriminate.
    - inversion Hr; tauto. }
  destruct (debug_echo parameters); inversion H; subst; simpl.
  - auto.
  - repeat split.
    + rewrite <- (length_map role), overwrite_user_input_roles.
      apply length_map.
    + destruct Hnone as [H1 H2].
      destruct response' as [r'|], response as [r|]; try reflexivity.
      * discriminate (H1 eq_refl).
      * discriminate (H2 eq_refl).
Qed.

Lemma process_result_carries_witness :
  let prompt := {| messages := [ {| content := "mail a@b.com"; role := USER |} ] |} in
  let parameters :=
    {| rules := [email_rule]; debug_echo := true; placeholder := "*";
       reveal_start := 2; reveal_end := 2 |} in
  exists result prompt',
    process MiniRe.engine prompt (Some {| choices := Some [] |}) parameters
    = Returned result prompt' (Some {| choices := Some [] |})
    /\ messages prompt'
       = [ {| content := "mail a@***om"; role := USER |};
           {| content := "mail a@***om"; role := SYSTEM |} ]
    /\ modified_response result = None.
Proof.
  intros prompt parameters.
  destruct (process MiniRe.engine prompt (Some {| choices := Some [] |})
              parameters) as [result prompt' response'|] eqn:Hp;
    [|vm_compute in Hp; discriminate].
  destruct (process_result_carries MiniRe.engine prompt
              (Some {| choices := Some [] |}) parameters result prompt'
              response' Hp) as (masked & Hmask & Hmsgs & _ & Hresp).
  assert (response' = Some {| choices := Some [] |}) as ->
    by (vm_compute in Hp; now inversion Hp).
  exists result, prompt'. split; [reflexivity|]. split; [|exact Hresp].
  vm_compute in Hmask. inversion Hmask; subst masked. exact Hmsgs.
Defined.
